(** * Register-overlay blinker (Embedded C, part F): model and properties

    The program under study is [src/main.c]: a union [U_type] that overlays
    a byte with eight one-bit fields, a struct [GPIO_Type] of three such
    registers placed on the I/O ports of an 8-bit AVR, and a [main] that sets
    two direction registers and then toggles a port forever.

    Bytes are integers in [0, 256); the data space is a map from addresses
    to bytes; [main] is a small control-flow graph run by a step function. *)

From Stdlib Require Import ZArith List Bool Lia.
Import ListNotations.
Open Scope Z_scope.

(** ** Bytes: [uint8_t] *)

Module Byte8.

Definition CHAR_BIT : Z := 8.

(** Conversion of an integer to [uint8_t]: reduction modulo 2^8. *)
Definition to_uint8 (v : Z) : Z := v mod 256.

Definition is_uint8 (v : Z) : Prop := 0 <= v < 256.

End Byte8.
Export Byte8.

(** ** The bit-field struct [GPIO_pinType]

    Eight fields of width one, declared [PIN0] .. [PIN7]. *)

Record GPIO_pinType : Type := mkPins {
  PIN0 : bool;
  PIN1 : bool;
  PIN2 : bool;
  PIN3 : bool;
  PIN4 : bool;
  PIN5 : bool;
  PIN6 : bool;
  PIN7 : bool
}.

(** Field selected by its position in the declaration. *)
Definition get_pin (i : Z) (s : GPIO_pinType) : bool :=
  match i with
  | 0 => PIN0 s
  | 1 => PIN1 s
  | 2 => PIN2 s
  | 3 => PIN3 s
  | 4 => PIN4 s
  | 5 => PIN5 s
  | 6 => PIN6 s
  | 7 => PIN7 s
  | _ => false
  end.

(** Assignment to one field; the other fields of the struct keep their
    value.  There is no field beyond [PIN7]. *)
Definition set_pin (i : Z) (b : bool) (s : GPIO_pinType) : GPIO_pinType :=
  match i with
  | 0 => mkPins b (PIN1 s) (PIN2 s) (PIN3 s) (PIN4 s) (PIN5 s) (PIN6 s) (PIN7 s)
  | 1 => mkPins (PIN0 s) b (PIN2 s) (PIN3 s) (PIN4 s) (PIN5 s) (PIN6 s) (PIN7 s)
  | 2 => mkPins (PIN0 s) (PIN1 s) b (PIN3 s) (PIN4 s) (PIN5 s) (PIN6 s) (PIN7 s)
  | 3 => mkPins (PIN0 s) (PIN1 s) (PIN2 s) b (PIN4 s) (PIN5 s) (PIN6 s) (PIN7 s)
  | 4 => mkPins (PIN0 s) (PIN1 s) (PIN2 s) (PIN3 s) b (PIN5 s) (PIN6 s) (PIN7 s)
  | 5 => mkPins (PIN0 s) (PIN1 s) (PIN2 s) (PIN3 s) (PIN4 s) b (PIN6 s) (PIN7 s)
  | 6 => mkPins (PIN0 s) (PIN1 s) (PIN2 s) (PIN3 s) (PIN4 s) (PIN5 s) b (PIN7 s)
  | 7 => mkPins (PIN0 s) (PIN1 s) (PIN2 s) (PIN3 s) (PIN4 s) (PIN5 s) (PIN6 s) b
  | _ => s
  end.

(** ** Layout of the C types

    Sizes are in bytes.  Bit-fields are packed from the least significant
    bit of their storage unit in declaration order (the target is little
    endian), a field that does not fit opens a new unit.  Struct members are
    laid out in declaration order, each at the next multiple of its
    alignment. *)

Module Layout.

Record ctype : Type := mkCtype { sizeof : Z; alignof : Z }.

Definition uint8_t : ctype := mkCtype 1 1.

(** Bit-field allocation: the state is (units already full, bits used in
    the open unit); the result lists, per field, its unit and its bit
    offset inside the unit. *)
Fixpoint alloc_bits (unit_bits : Z) (units used : Z) (widths : list Z)
  : list (Z * Z) * Z :=
  match widths with
  | [] => ([], if used =? 0 then units else units + 1)
  | w :: ws =>
      if used + w <=? unit_bits
      then let (r, n) := alloc_bits unit_bits units (used + w) ws in
           ((units, used) :: r, n)
      else let (r, n) := alloc_bits unit_bits (units + 1) w ws in
           ((units + 1, 0) :: r, n)
  end.

(** [GPIO_pinType]: eight [uint8_t] bit-fields of width 1. *)
Definition GPIO_pinType_widths : list Z := [1; 1; 1; 1; 1; 1; 1; 1].

Definition GPIO_pinType_fields : list (Z * Z) :=
  fst (alloc_bits (CHAR_BIT * sizeof uint8_t) 0 0 GPIO_pinType_widths).

Definition GPIO_pinType_t : ctype :=
  mkCtype
    (sizeof uint8_t *
     snd (alloc_bits (CHAR_BIT * sizeof uint8_t) 0 0 GPIO_pinType_widths))
    (alignof uint8_t).

(** Bit position, inside the byte, of the k-th declared field. *)
Definition field_bit (k : nat) : Z :=
  snd (nth k GPIO_pinType_fields (0, 0)).

(** A union is as large as its largest member, as aligned as its most
    aligned one; all its members start at offset 0. *)
Definition union_of (members : list ctype) : ctype :=
  mkCtype (fold_right Z.max 0 (map sizeof members))
          (fold_right Z.max 1 (map alignof members)).

Definition U_type_t : ctype := union_of [uint8_t; GPIO_pinType_t].

Definition align_up (n a : Z) : Z := ((n + a - 1) / a) * a.

(** Offsets of the members of a struct, from offset [from]. *)
Fixpoint struct_offsets (from : Z) (members : list ctype) : list Z :=
  match members with
  | [] => []
  | t :: ts =>
      let o := align_up from (alignof t) in
      o :: struct_offsets (o + sizeof t) ts
  end.

Fixpoint struct_end (from : Z) (members : list ctype) : Z :=
  match members with
  | [] => from
  | t :: ts => struct_end (align_up from (alignof t) + sizeof t) ts
  end.

Definition struct_of (members : list ctype) : ctype :=
  let a := fold_right Z.max 1 (map alignof members) in
  mkCtype (align_up (struct_end 0 members) a) a.

End Layout.

(** ** The union [U_type]

    One byte of storage seen either as [Reg] (the whole byte) or as [Bit]
    (the eight fields).  Both views are functions of the same byte. *)

(** Bit of the byte that holds the k-th field. *)
Definition fbit (k : nat) : Z := Layout.field_bit k.

(** The [Bit] view of a stored byte: each field is read at its position. *)
Definition Bit_of_Reg (r : Z) : GPIO_pinType :=
  mkPins (Z.testbit r (fbit 0)) (Z.testbit r (fbit 1))
         (Z.testbit r (fbit 2)) (Z.testbit r (fbit 3))
         (Z.testbit r (fbit 4)) (Z.testbit r (fbit 5))
         (Z.testbit r (fbit 6)) (Z.testbit r (fbit 7)).

(** The byte that stores a given [Bit] view. *)
Definition Reg_of_Bit (s : GPIO_pinType) : Z :=
  Z.lor (Z.shiftl (Z.b2z (PIN0 s)) (fbit 0))
 (Z.lor (Z.shiftl (Z.b2z (PIN1 s)) (fbit 1))
 (Z.lor (Z.shiftl (Z.b2z (PIN2 s)) (fbit 2))
 (Z.lor (Z.shiftl (Z.b2z (PIN3 s)) (fbit 3))
 (Z.lor (Z.shiftl (Z.b2z (PIN4 s)) (fbit 4))
 (Z.lor (Z.shiftl (Z.b2z (PIN5 s)) (fbit 5))
 (Z.lor (Z.shiftl (Z.b2z (PIN6 s)) (fbit 6))
        (Z.shiftl (Z.b2z (PIN7 s)) (fbit 7)))))))).

Module U_type.

(** [u.Reg] as an rvalue. *)
Definition read_Reg (storage : Z) : Z := storage.

(** [u.Reg = v]: the new storage. *)
Definition write_Reg (storage : Z) (v : Z) : Z := to_uint8 v.

(** [u.Bit.PINi] as an rvalue. *)
Definition read_Bit (storage : Z) (i : Z) : Z :=
  Z.b2z (get_pin i (Bit_of_Reg storage)).

(** [u.Bit.PINi = v]: [v] is converted to the one-bit field (its lowest
    bit), the field is replaced, the struct is stored back. *)
Definition write_Bit (storage : Z) (i : Z) (v : Z) : Z :=
  Reg_of_Bit (set_pin i (Z.odd v) (Bit_of_Reg storage)).

End U_type.

(** ** The struct [GPIO_Type] and the two ports *)

Inductive GPIO_member : Type := PIN | DDR | PORT.

(** The members in declaration order, each a [U_type]. *)
Definition GPIO_Type_decl : list (GPIO_member * Layout.ctype) :=
  [(PIN, Layout.U_type_t); (DDR, Layout.U_type_t); (PORT, Layout.U_type_t)].

Definition GPIO_Type_t : Layout.ctype :=
  Layout.struct_of (map snd GPIO_Type_decl).

Definition GPIO_member_eqb (a b : GPIO_member) : bool :=
  match a, b with
  | PIN, PIN | DDR, DDR | PORT, PORT => true
  | _, _ => false
  end.

Fixpoint assoc_offset (m : GPIO_member) (names : list GPIO_member)
  (offsets : list Z) : Z :=
  match names, offsets with
  | n :: ns, o :: os => if GPIO_member_eqb m n then o else assoc_offset m ns os
  | _, _ => 0
  end.

Definition offsetof (m : GPIO_member) : Z :=
  assoc_offset m (map fst GPIO_Type_decl)
    (Layout.struct_offsets 0 (map snd GPIO_Type_decl)).

(** The macros [GPIOB] and [GPIOD]: pointers to [GPIO_Type] made from the
    constants 0x23 and 0x29. *)
Definition GPIOB : Z := 0x23.
Definition GPIOD : Z := 0x29.

(** Address of [base->m]. *)
Definition reg_addr (base : Z) (m : GPIO_member) : Z := base + offsetof m.

(** ** The data space *)

Definition memory : Type := Z -> Z.

Definition load (m : memory) (a : Z) : Z := m a.

Definition store (m : memory) (a v : Z) : memory :=
  fun x => if x =? a then v else m x.

(** ** The machine that runs [main]

    The observable behaviour is the sequence of bus accesses and waits.
    Register accesses take no time on the clock, which counts the
    milliseconds spent in [_delay_ms]. *)

Inductive event : Type :=
  | EvRead (addr : Z)
  | EvWrite (addr value : Z)
  | EvDelay (ms : Z).

(** Program points of [main]. *)
Inductive label : Type :=
  | L_init_DDRB      (* GPIOB->DDR.Reg = 0xAA;      *)
  | L_init_DDRD      (* GPIOD->DDR.Bit.PIN0 = 1;    *)
  | L_while          (* while(1)                    *)
  | L_high           (* GPIOB->PORT.Reg = 0xAA;     *)
  | L_delay_high     (* _delay_ms(1000);            *)
  | L_low            (* GPIOB->PORT.Reg = 0x00;     *)
  | L_delay_low      (* _delay_ms(1000);            *)
  | L_exit.          (* closing brace of main       *)

Inductive instr : Type :=
  | IStoreReg (addr value : Z) (next : label)
  | IStoreBit (addr bit value : Z) (next : label)
  | IDelay (ms : Z) (next : label)
  | IWhile (cond : Z) (body after : label)
  | IHalt.

Definition main_code (l : label) : instr :=
  match l with
  | L_init_DDRB  => IStoreReg (reg_addr GPIOB DDR) 0xAA L_init_DDRD
  | L_init_DDRD  => IStoreBit (reg_addr GPIOD DDR) 0 1 L_while
  | L_while      => IWhile 1 L_high L_exit
  | L_high       => IStoreReg (reg_addr GPIOB PORT) 0xAA L_delay_high
  | L_delay_high => IDelay 1000 L_low
  | L_low        => IStoreReg (reg_addr GPIOB PORT) 0x00 L_delay_low
  | L_delay_low  => IDelay 1000 L_while
  | L_exit       => IHalt
  end.

Record config : Type := mkConfig {
  pc : label;
  mem : memory;
  clock : Z;
  trace : list event      (* most recent event first *)
}.

(** Modelled from the spec: [_delay_ms] comes from [<util/delay.h>], which
    is not part of the repository.  It is the blocking delay primitive of the
    timing boundary: it takes a duration in whole milliseconds, returns
    nothing, cannot fail, and gives control back once that time has
    elapsed. *)
Definition _delay_ms (ms : Z) (s : config) : config :=
  mkConfig (pc s) (mem s) (clock s + ms) (EvDelay ms :: trace s).

(** [p->X.Reg = v]: one byte written. *)
Definition store_Reg (a v : Z) (s : config) : config :=
  let b := U_type.write_Reg (load (mem s) a) v in
  mkConfig (pc s) (store (mem s) a b) (clock s) (EvWrite a b :: trace s).

(** [p->X.Bit.PINi = v]: the byte that holds the field is fetched, the field
    is replaced, the byte is written back. *)
Definition store_Bit (a i v : Z) (s : config) : config :=
  let b := U_type.write_Bit (load (mem s) a) i v in
  mkConfig (pc s) (store (mem s) a b) (clock s)
           (EvWrite a b :: EvRead a :: trace s).

Definition goto (l : label) (s : config) : config :=
  mkConfig l (mem s) (clock s) (trace s).

Definition exec (i : instr) (s : config) : config :=
  match i with
  | IStoreReg a v next => goto next (store_Reg a v s)
  | IStoreBit a b v next => goto next (store_Bit a b v s)
  | IDelay ms next => goto next (_delay_ms ms s)
  | IWhile c body after => if c =? 0 then goto after s else goto body s
  | IHalt => s
  end.

Definition step (s : config) : config := exec (main_code (pc s)) s.

Fixpoint run (n : nat) (s : config) : config :=
  match n with
  | O => s
  | S k => run k (step s)
  end.

(** Entry into [main] with the data space as the hardware left it. *)
Definition initial (m0 : memory) : config := mkConfig L_init_DDRB m0 0 [].

(** Steps taken by the two initialisation statements, and by one turn of
    the loop (test, store, wait, store, wait). *)
Definition init_steps : nat := 2.
Definition loop_steps : nat := 5.

Definition after_iterations (N : nat) (m0 : memory) : config :=
  run (init_steps + loop_steps * N) (initial m0).

(** The registers the claims talk about. *)
Definition PINB : Z := reg_addr GPIOB PIN.
Definition DDRB : Z := reg_addr GPIOB DDR.
Definition PORTB : Z := reg_addr GPIOB PORT.
Definition PIND : Z := reg_addr GPIOD PIN.
Definition DDRD : Z := reg_addr GPIOD DDR.
Definition PORTD : Z := reg_addr GPIOD PORT.

(** Chronological list of the bus writes of a trace. *)
Fixpoint writes_of (tr : list event) : list (Z * Z) :=
  match tr with
  | [] => []
  | EvWrite a v :: r => writes_of r ++ [(a, v)]
  | _ :: r => writes_of r
  end.

Fixpoint reads_of (tr : list event) : list Z :=
  match tr with
  | [] => []
  | EvRead a :: r => reads_of r ++ [a]
  | _ :: r => reads_of r
  end.

Fixpoint count_writes_to (a : Z) (tr : list event) : nat :=
  match tr with
  | [] => O
  | EvWrite x _ :: r => if x =? a then S (count_writes_to a r) else count_writes_to a r
  | _ :: r => count_writes_to a r
  end.

(** ** Observation over time

    The machine is observed at time [t] while it sits in the wait that
    covers [t]: every statement that starts no later than [t] has run. *)

Fixpoint run_until (fuel : nat) (t : Z) (s : config) : option config :=
  match fuel with
  | O => None
  | S k =>
      match main_code (pc s) with
      | IHalt => Some s
      | IDelay ms _ =>
          if t <? clock s + ms then Some s else run_until k t (step s)
      | _ => run_until k t (step s)
      end
  end.

(** Enough steps to reach time [t] from the entry of [main]. *)
Definition fuel_for (t : Z) : nat :=
  init_steps + loop_steps * S (Z.to_nat (t / 2000)).

Definition sample (a : Z) (t : Z) (m0 : memory) : option Z :=
  option_map (fun s => load (mem s) a) (run_until (fuel_for t) t (initial m0)).

(** The two states of the toggle loop: the machine waits with the pattern,
    or with zero, on the output register of the first port. *)
Inductive toggle : Type := HIGH | LOW.

Definition toggle_of (s : config) : option toggle :=
  match pc s with
  | L_delay_high => if load (mem s) PORTB =? 0xAA then Some HIGH else None
  | L_delay_low => if load (mem s) PORTB =? 0x00 then Some LOW else None
  | _ => None
  end.

(** The value expected on the output register at time [t]. *)
Definition waveform (t : Z) : Z := if Z.even (t / 1000) then 0xAA else 0x00.

Definition zero_mem : memory := fun _ => 0.

(** A data space that differs from [zero_mem] in the direction register of
    the second port only. *)
Definition mem_DDRD_F0 : memory := fun a => if a =? DDRD then 0xF0 else 0.

(** ** Invariant of the run

    What holds of a configuration reached from [initial m0], by program
    point.  [portb] is the value the output register is known to hold. *)

(** The direction register of the second port once bit 0 has been set. *)
Definition DDRD_after_init (m0 : memory) : Z :=
  U_type.write_Bit (load m0 DDRD) 0 1.

Definition is_PORTB_write (w : Z * Z) : Prop :=
  fst w = PORTB /\ (snd w = 0xAA \/ snd w = 0x00).

Definition loop_inv (m0 : memory) (s : config) (portb : option Z) : Prop :=
  load (mem s) DDRB = 0xAA /\
  load (mem s) DDRD = DDRD_after_init m0 /\
  (forall a, a <> DDRB -> a <> DDRD -> a <> PORTB ->
             load (mem s) a = load m0 a) /\
  reads_of (trace s) = [DDRD] /\
  count_writes_to DDRB (trace s) = 1%nat /\
  count_writes_to DDRD (trace s) = 1%nat /\
  (exists rest,
      writes_of (trace s) = (DDRB, 0xAA) :: (DDRD, DDRD_after_init m0) :: rest
      /\ Forall is_PORTB_write rest) /\
  match portb with
  | Some v => load (mem s) PORTB = v
  | None => True
  end.

Definition Inv (m0 : memory) (s : config) : Prop :=
  match pc s with
  | L_init_DDRB =>
      (forall a, load (mem s) a = load m0 a) /\ trace s = []
  | L_init_DDRD =>
      load (mem s) DDRB = 0xAA /\
      (forall a, a <> DDRB -> load (mem s) a = load m0 a) /\
      trace s = [EvWrite DDRB 0xAA]
  | L_while | L_high => loop_inv m0 s None
  | L_delay_high | L_low => loop_inv m0 s (Some 0xAA)
  | L_delay_low => loop_inv m0 s (Some 0x00)
  | L_exit => False
  end.

(** Two configurations that the program cannot tell apart: same program
    point, clock and trace, same content of the only register whose content
    the program uses. *)
Definition indistinguishable (s1 s2 : config) : Prop :=
  pc s1 = pc s2 /\ clock s1 = clock s2 /\ trace s1 = trace s2 /\
  load (mem s1) DDRD = load (mem s2) DDRD.

(** Program points inside the toggle loop. *)
Definition in_loop (l : label) : bool :=
  match l with
  | L_while | L_high | L_delay_high | L_low | L_delay_low => true
  | L_init_DDRB | L_init_DDRD | L_exit => false
  end.

(** ** Notions for the run as a whole *)

(** Events of the two initialisation statements, most recent first. *)
Definition init_events (m0 : memory) : list event :=
  [EvWrite DDRD (DDRD_after_init m0); EvRead DDRD; EvWrite DDRB 0xAA].

(** Events of one turn of the loop, most recent first. *)
Definition loop_events : list event :=
  [EvDelay 1000; EvWrite PORTB 0x00; EvDelay 1000; EvWrite PORTB 0xAA].

Fixpoint repeat_events (N : nat) (evs : list event) : list event :=
  match N with
  | O => []
  | S k => evs ++ repeat_events k evs
  end.

(** [s1] is [s2] seen [d] time units later: same program point, same
    content of every address. *)
Definition same_state (d : Z) (s1 s2 : config) : Prop :=
  pc s1 = pc s2 /\
  clock s1 = clock s2 + d /\
  forall a, load (mem s1) a = load (mem s2) a.

(** The loop has stored to the output register at least once. *)
Definition driving (s : config) : Prop :=
  in_loop (pc s) = true /\
  load (mem s) DDRB = 0xAA /\
  (load (mem s) PORTB = 0xAA \/ load (mem s) PORTB = 0x00).

(** Steps from the entry of [main] to the first wait of the loop: the
    initialisation, the loop test and the first store. *)
Definition first_wait_steps : nat := init_steps + 2.

(** * Properties *)

(** ** Bytes and the two views *)

Lemma to_uint8_range (v : Z) : is_uint8 (to_uint8 v).
Proof. unfold is_uint8, to_uint8. apply Z.mod_pos_bound. lia. Qed.

Lemma to_uint8_id (v : Z) : is_uint8 v -> to_uint8 v = v.
Proof. unfold is_uint8, to_uint8. intros H. apply Z.mod_small. exact H. Qed.

Lemma uint8_high_bits (x j : Z) : is_uint8 x -> 8 <= j -> Z.testbit x j = false.
Proof.
  unfold is_uint8. intros Hx Hj.
  destruct (Z.eq_dec x 0) as [-> | Hnz].
  - apply Z.testbit_0_l.
  - apply Z.bits_above_log2; [lia |].
    assert (Z.log2 x < 8) by (apply Z.log2_lt_pow2; simpl; lia).
    lia.
Qed.

Ltac enum_bit j :=
  let H := fresh in
  assert (H : j = 0 \/ j = 1 \/ j = 2 \/ j = 3 \/ j = 4 \/ j = 5 \/ j = 6 \/ j = 7)
    by lia;
  repeat (destruct H as [H | H]); subst j.

Lemma get_pin_Bit_of_Reg (r j : Z) :
  0 <= j < 8 -> get_pin j (Bit_of_Reg r) = Z.testbit r j.
Proof. intros Hj. enum_bit j; reflexivity. Qed.

Lemma Reg_of_Bit_range (s : GPIO_pinType) : is_uint8 (Reg_of_Bit s).
Proof.
  destruct s as [[] [] [] [] [] [] [] []]; vm_compute; split; congruence.
Qed.

Lemma testbit_Reg_of_Bit (s : GPIO_pinType) (j : Z) :
  0 <= j < 8 -> Z.testbit (Reg_of_Bit s) j = get_pin j s.
Proof.
  intros Hj. destruct s as [b0 b1 b2 b3 b4 b5 b6 b7].
  enum_bit j;
    destruct b0, b1, b2, b3, b4, b5, b6, b7; reflexivity.
Qed.

Lemma get_set_pin_same (i : Z) (b : bool) (s : GPIO_pinType) :
  0 <= i < 8 -> get_pin i (set_pin i b s) = b.
Proof. intros Hi. enum_bit i; reflexivity. Qed.

Lemma get_set_pin_other (i j : Z) (b : bool) (s : GPIO_pinType) :
  0 <= i < 8 -> 0 <= j < 8 -> j <> i -> get_pin j (set_pin i b s) = get_pin j s.
Proof.
  intros Hi Hj Hne.
  enum_bit i; enum_bit j; try reflexivity; exfalso; apply Hne; reflexivity.
Qed.

Lemma write_Bit_range (b i v : Z) : is_uint8 (U_type.write_Bit b i v).
Proof. apply Reg_of_Bit_range. Qed.

Lemma write_Bit_same (b i v : Z) :
  0 <= i < 8 -> Z.testbit (U_type.write_Bit b i v) i = Z.odd v.
Proof.
  intros Hi. unfold U_type.write_Bit.
  rewrite testbit_Reg_of_Bit by exact Hi.
  apply get_set_pin_same. exact Hi.
Qed.

Lemma write_Bit_other (b i v j : Z) :
  0 <= i < 8 -> 0 <= j < 8 -> j <> i ->
  Z.testbit (U_type.write_Bit b i v) j = Z.testbit b j.
Proof.
  intros Hi Hj Hne. unfold U_type.write_Bit.
  rewrite testbit_Reg_of_Bit by exact Hj.
  rewrite get_set_pin_other by assumption.
  apply get_pin_Bit_of_Reg. exact Hj.
Qed.

(** Both views hold the same byte: decoding then encoding is the identity
    on bytes. *)
Lemma Reg_of_Bit_of_Reg (r : Z) : is_uint8 r -> Reg_of_Bit (Bit_of_Reg r) = r.
Proof.
  intros Hr. apply Z.bits_inj'. intros j Hj.
  destruct (Z_lt_le_dec j 8) as [Hlt | Hge].
  - rewrite testbit_Reg_of_Bit by lia. apply get_pin_Bit_of_Reg. lia.
  - rewrite !uint8_high_bits; auto using Reg_of_Bit_range.
Qed.

(** ** The machine, one statement at a time *)

#[local] Arguments U_type.write_Bit : simpl never.

Lemma DDRB_addr : DDRB = 0x24. Proof. reflexivity. Qed.
Lemma DDRD_addr : DDRD = 0x2A. Proof. reflexivity. Qed.
Lemma PORTB_addr : PORTB = 0x25. Proof. reflexivity. Qed.
Lemma PINB_addr : PINB = 0x23. Proof. reflexivity. Qed.
Lemma PIND_addr : PIND = 0x29. Proof. reflexivity. Qed.

Lemma load_store_same (m : memory) (a v : Z) : load (store m a v) a = v.
Proof. unfold load, store. rewrite Z.eqb_refl. reflexivity. Qed.

Lemma load_store_other (m : memory) (a v x : Z) :
  x <> a -> load (store m a v) x = load m x.
Proof.
  intros Hne. unfold load, store.
  destruct (Z.eqb_spec x a); [contradiction | reflexivity].
Qed.

Lemma step_init_DDRB m c tr :
  step (mkConfig L_init_DDRB m c tr)
  = mkConfig L_init_DDRD (store m DDRB 0xAA) c (EvWrite DDRB 0xAA :: tr).
Proof. reflexivity. Qed.

Lemma step_init_DDRD m c tr :
  step (mkConfig L_init_DDRD m c tr)
  = mkConfig L_while (store m DDRD (U_type.write_Bit (load m DDRD) 0 1)) c
      (EvWrite DDRD (U_type.write_Bit (load m DDRD) 0 1) :: EvRead DDRD :: tr).
Proof. reflexivity. Qed.

Lemma step_while m c tr :
  step (mkConfig L_while m c tr) = mkConfig L_high m c tr.
Proof. reflexivity. Qed.

Lemma step_high m c tr :
  step (mkConfig L_high m c tr)
  = mkConfig L_delay_high (store m PORTB 0xAA) c (EvWrite PORTB 0xAA :: tr).
Proof. reflexivity. Qed.

Lemma step_delay_high m c tr :
  step (mkConfig L_delay_high m c tr)
  = mkConfig L_low m (c + 1000) (EvDelay 1000 :: tr).
Proof. reflexivity. Qed.

Lemma step_low m c tr :
  step (mkConfig L_low m c tr)
  = mkConfig L_delay_low (store m PORTB 0x00) c (EvWrite PORTB 0x00 :: tr).
Proof. reflexivity. Qed.

Lemma step_delay_low m c tr :
  step (mkConfig L_delay_low m c tr)
  = mkConfig L_while m (c + 1000) (EvDelay 1000 :: tr).
Proof. reflexivity. Qed.

Lemma step_exit m c tr :
  step (mkConfig L_exit m c tr) = mkConfig L_exit m c tr.
Proof. reflexivity. Qed.

Create Rewrite HintDb machine.
#[local] Hint Rewrite step_init_DDRB step_init_DDRD step_while step_high
  step_delay_high step_low step_delay_low step_exit : machine.
#[local] Hint Rewrite load_store_same : machine.

Lemma run_add (a b : nat) (s : config) : run (a + b) s = run b (run a s).
Proof.
  revert s. induction a as [| a IH]; intros s; simpl.
  - reflexivity.
  - apply IH.
Qed.

Lemma run_succ (n : nat) (s : config) : run (S n) s = step (run n s).
Proof.
  replace (S n) with (n + 1)%nat by lia. rewrite run_add. reflexivity.
Qed.

(** One turn of the loop, from the test back to the test. *)
Lemma run_loop_once m c tr :
  run loop_steps (mkConfig L_while m c tr)
  = mkConfig L_while (store (store m PORTB 0xAA) PORTB 0x00) (c + 1000 + 1000)
      (EvDelay 1000 :: EvWrite PORTB 0x00 ::
       EvDelay 1000 :: EvWrite PORTB 0xAA :: tr).
Proof. reflexivity. Qed.

Lemma after_iterations_succ (N : nat) (m0 : memory) :
  after_iterations (S N) m0 = run loop_steps (after_iterations N m0).
Proof.
  unfold after_iterations.
  replace (init_steps + loop_steps * S N)%nat
    with ((init_steps + loop_steps * N) + loop_steps)%nat
    by (unfold init_steps, loop_steps; lia).
  apply run_add.
Qed.

Lemma after_iterations_loop_head (N : nat) (m0 : memory) :
  pc (after_iterations N m0) = L_while /\
  clock (after_iterations N m0) = 2000 * Z.of_nat N.
Proof.
  induction N as [| N [Hpc Hclk]].
  - split; reflexivity.
  - rewrite after_iterations_succ.
    destruct (after_iterations N m0) as [p m c tr].
    cbn [pc clock] in Hpc, Hclk. subst p.
    rewrite run_loop_once. cbn [pc clock]. split; [reflexivity | lia].
Qed.

(** ** The invariant holds along every run *)

Lemma addr_distinct :
  DDRB <> DDRD /\ DDRB <> PORTB /\ DDRD <> PORTB /\
  PINB <> DDRD /\ PIND <> DDRD.
Proof. repeat split; discriminate. Qed.

Ltac conjs := repeat match goal with |- _ /\ _ => split end.

Ltac addr_neq :=
  solve [ assumption
        | apply not_eq_sym; assumption
        | discriminate
        | rewrite ?DDRB_addr, ?DDRD_addr, ?PORTB_addr, ?PINB_addr, ?PIND_addr in *; lia ].

Ltac mem_simpl :=
  repeat first
    [ rewrite load_store_same
    | rewrite load_store_other by addr_neq ].

Lemma loop_inv_store_PORTB m0 m c tr p p' portb v :
  v = 0xAA \/ v = 0x00 ->
  loop_inv m0 (mkConfig p m c tr) portb ->
  loop_inv m0 (mkConfig p' (store m PORTB v) c (EvWrite PORTB v :: tr)) (Some v).
Proof.
  intros Hv (HB & HD & Hfr & Hrd & HcB & HcD & (rest & Hw & Hall) & _).
  cbn [mem trace] in *. unfold loop_inv. cbn [mem trace].
  conjs.
  - mem_simpl. exact HB.
  - mem_simpl. exact HD.
  - intros a H1 H2 H3. mem_simpl. apply Hfr; assumption.
  - exact Hrd.
  - exact HcB.
  - exact HcD.
  - exists (rest ++ [(PORTB, v)]). split.
    + cbn [writes_of]. rewrite Hw. reflexivity.
    + apply Forall_app. split; [exact Hall |].
      constructor; [| constructor]. split; [reflexivity | exact Hv].
  - mem_simpl. reflexivity.
Qed.

Lemma loop_inv_delay m0 m c c' tr p p' portb d :
  loop_inv m0 (mkConfig p m c tr) portb ->
  loop_inv m0 (mkConfig p' m c' (EvDelay d :: tr)) portb.
Proof. intros H. exact H. Qed.

Lemma loop_inv_forget m0 m c tr p p' portb :
  loop_inv m0 (mkConfig p m c tr) portb ->
  loop_inv m0 (mkConfig p' m c tr) None.
Proof.
  intros (HB & HD & Hfr & Hrd & HcB & HcD & Hw & _).
  unfold loop_inv. cbn [mem trace] in *. conjs; solve [assumption | exact I].
Qed.

Lemma Inv_initial (m0 : memory) : Inv m0 (initial m0).
Proof. split; reflexivity. Qed.

Lemma Inv_step (m0 : memory) (s : config) : Inv m0 s -> Inv m0 (step s).
Proof.
  destruct s as [p m c tr]. unfold Inv. cbn [pc].
  destruct p; intros H; autorewrite with machine; cbn [pc].
  - destruct H as [Hm Htr]. cbn [mem trace] in *. subst tr.
    conjs.
    + mem_simpl. reflexivity.
    + intros a Ha. mem_simpl. apply Hm.
    + reflexivity.
  - destruct H as (HB & Hm & Htr). cbn [mem trace] in *. subst tr.
    unfold loop_inv. cbn [mem trace].
    assert (HD : load m DDRD = load m0 DDRD) by (apply Hm; addr_neq).
    conjs.
    + mem_simpl. exact HB.
    + mem_simpl. unfold DDRD_after_init. rewrite HD. reflexivity.
    + intros a H1 H2 H3. mem_simpl. apply Hm. exact H1.
    + reflexivity.
    + reflexivity.
    + reflexivity.
    + exists []. split; [| constructor].
      cbn [writes_of app]. unfold DDRD_after_init. rewrite HD. reflexivity.
    + exact I.
  - eapply loop_inv_forget. exact H.
  - eapply loop_inv_store_PORTB; [left; reflexivity | exact H].
  - eapply loop_inv_delay. exact H.
  - eapply loop_inv_store_PORTB; [right; reflexivity | exact H].
  - eapply loop_inv_forget with (p := L_delay_low).
    eapply loop_inv_delay. exact H.
  - exact H.
Qed.

Lemma Inv_run (m0 : memory) (n : nat) : Inv m0 (run n (initial m0)).
Proof.
  induction n as [| n IH].
  - apply Inv_initial.
  - rewrite run_succ. apply Inv_step. exact IH.
Qed.

(** ** Observation over time: the machine always reaches its next wait *)

Lemma run_until_init (f : nat) (t : Z) (m0 : memory) :
  run_until (init_steps + f) t (initial m0)
  = run_until f t
      (mkConfig L_while
         (store (store m0 DDRB 0xAA) DDRD (U_type.write_Bit (load (store m0 DDRB 0xAA) DDRD) 0 1))
         0
         [EvWrite DDRD (U_type.write_Bit (load (store m0 DDRB 0xAA) DDRD) 0 1);
          EvRead DDRD; EvWrite DDRB 0xAA]).
Proof. reflexivity. Qed.

(** One turn of the loop as seen by an observer at time [t]. *)
Lemma run_until_iteration (f : nat) (t : Z) m c tr :
  run_until (loop_steps + f) t (mkConfig L_while m c tr)
  = if t <? c + 1000
    then Some (mkConfig L_delay_high (store m PORTB 0xAA) c
                 (EvWrite PORTB 0xAA :: tr))
    else if t <? c + 1000 + 1000
    then Some (mkConfig L_delay_low (store (store m PORTB 0xAA) PORTB 0x00)
                 (c + 1000)
                 (EvWrite PORTB 0x00 :: EvDelay 1000 :: EvWrite PORTB 0xAA :: tr))
    else run_until f t
           (mkConfig L_while (store (store m PORTB 0xAA) PORTB 0x00)
              (c + 1000 + 1000)
              (EvDelay 1000 :: EvWrite PORTB 0x00 ::
               EvDelay 1000 :: EvWrite PORTB 0xAA :: tr)).
Proof. reflexivity. Qed.

Lemma run_until_mono (f : nat) (t : Z) (s s' : config) :
  run_until f t s = Some s' -> run_until (S f) t s = Some s'.
Proof.
  revert s. induction f as [| f IH]; intros s H.
  - discriminate H.
  - change (run_until (S (S f)) t s) with
      (match main_code (pc s) with
       | IHalt => Some s
       | IDelay ms _ =>
           if t <? clock s + ms then Some s else run_until (S f) t (step s)
       | _ => run_until (S f) t (step s)
       end).
    change (run_until (S f) t s) with
      (match main_code (pc s) with
       | IHalt => Some s
       | IDelay ms _ =>
           if t <? clock s + ms then Some s else run_until f t (step s)
       | _ => run_until f t (step s)
       end) in H.
    destruct (main_code (pc s)); try (apply IH; exact H).
    + destruct (t <? clock s + ms); [exact H | apply IH; exact H].
    + exact H.
Qed.

(** The observer has found the machine in one of the two waits of the
    current turn. *)
Ltac found_waiting :=
  eexists; split; [reflexivity |];
  cbn [pc mem clock Z.even]; conjs;
  [ reflexivity
  | apply load_store_same
  | lia
  | let a := fresh "a" in
    let Ha := fresh "Ha" in
    intros a Ha; rewrite !load_store_other by exact Ha; reflexivity ].

Lemma run_until_more (f extra : nat) (t : Z) (s s' : config) :
  run_until f t s = Some s' -> run_until (f + extra) t s = Some s'.
Proof.
  intros H. induction extra as [| e IH].
  - rewrite Nat.add_0_r. exact H.
  - rewrite Nat.add_succ_r. apply run_until_mono. exact IH.
Qed.

Lemma even_sub_2 (q : Z) : Z.even (q - 2) = Z.even q.
Proof. rewrite Z.even_sub. simpl. destruct (Z.even q); reflexivity. Qed.

(** From the loop test at time [c], an observer at a time [t] that lies in
    the q-th interval of 1000 after [c] finds the machine waiting: with the
    pattern when [q] is even, with zero when [q] is odd. *)
Lemma run_until_loop (k : nat) :
  forall (q : Z) (fuel : nat) (t : Z) m c tr,
    0 <= q < 2 * (Z.of_nat k + 1) ->
    c + 1000 * q <= t < c + 1000 * (q + 1) ->
    (loop_steps * (k + 1) <= fuel)%nat ->
    exists s',
      run_until fuel t (mkConfig L_while m c tr) = Some s' /\
      pc s' = (if Z.even q then L_delay_high else L_delay_low) /\
      load (mem s') PORTB = (if Z.even q then 0xAA else 0x00) /\
      clock s' = c + 1000 * q /\
      (forall a, a <> PORTB -> load (mem s') a = load m a).
Proof.
  induction k as [| k IH]; intros q fuel t m c tr Hq Ht Hfuel;
    (replace fuel with (loop_steps + (fuel - loop_steps))%nat
      by (unfold loop_steps in *; lia));
    rewrite run_until_iteration;
    (destruct (Z.ltb_spec t (c + 1000)) as [H1 | H1];
     [assert (q = 0) by lia; subst q; found_waiting |]);
    (destruct (Z.ltb_spec t (c + 1000 + 1000)) as [H2 | H2];
     [assert (q = 1) by lia; subst q; found_waiting |]).
  - (* a single turn cannot reach beyond its two intervals *)
    lia.
  - (* the observer is later than this turn: go round once more *)
    destruct (IH (q - 2) (fuel - loop_steps)%nat t
                (store (store m PORTB 0xAA) PORTB 0x00)
                (c + 1000 + 1000)
                (EvDelay 1000 :: EvWrite PORTB 0x00 ::
                 EvDelay 1000 :: EvWrite PORTB 0xAA :: tr))
      as (s' & Hrun & Hpc & Hport & Hclk & Hfr);
      [lia | lia | unfold loop_steps in *; lia |].
    exists s'. rewrite even_sub_2 in Hpc, Hport. conjs.
    + exact Hrun.
    + exact Hpc.
    + exact Hport.
    + lia.
    + intros a Ha. rewrite Hfr by exact Ha.
      rewrite !load_store_other by exact Ha. reflexivity.
Qed.

Lemma fuel_for_enough (t : Z) :
  0 <= t -> 0 <= t / 1000 < 2 * (Z.of_nat (Z.to_nat (t / 2000)) + 1).
Proof.
  intros Ht. rewrite Z2Nat.id by (apply Z.div_pos; lia).
  assert (H1 := Z.div_mod t 1000 ltac:(lia)).
  assert (H2 := Z.mod_pos_bound t 1000 ltac:(lia)).
  assert (H3 := Z.div_mod t 2000 ltac:(lia)).
  assert (H4 := Z.mod_pos_bound t 2000 ltac:(lia)).
  lia.
Qed.

Lemma in_interval (t : Z) :
  0 + 1000 * (t / 1000) <= t < 0 + 1000 * (t / 1000 + 1).
Proof.
  assert (H1 := Z.div_mod t 1000 ltac:(lia)).
  assert (H2 := Z.mod_pos_bound t 1000 ltac:(lia)).
  lia.
Qed.

(** The observer at any time [t >= 0] finds the machine in the wait that
    covers [t], whatever fuel beyond [fuel_for t] is supplied. *)
Lemma run_until_main (m0 : memory) (t : Z) (fuel : nat) :
  0 <= t -> (fuel_for t <= fuel)%nat ->
  exists s,
    run_until fuel t (initial m0) = Some s /\
    pc s = (if Z.even (t / 1000) then L_delay_high else L_delay_low) /\
    load (mem s) PORTB = waveform t /\
    clock s = 1000 * (t / 1000) /\
    toggle_of s = Some (if Z.even (t / 1000) then HIGH else LOW).
Proof.
  intros Ht Hfuel. unfold fuel_for in Hfuel.
  replace fuel with (init_steps + (fuel - init_steps))%nat
    by (unfold init_steps in *; lia).
  rewrite run_until_init.
  edestruct (run_until_loop (Z.to_nat (t / 2000)) (t / 1000)
               (fuel - init_steps)%nat t) as (s & Hrun & Hpc & Hport & Hclk & _).
  - apply fuel_for_enough. exact Ht.
  - apply in_interval.
  - unfold init_steps, loop_steps in *. lia.
  - exists s. conjs.
    + exact Hrun.
    + exact Hpc.
    + exact Hport.
    + lia.
    + unfold toggle_of. rewrite Hpc, Hport.
      destruct (Z.even (t / 1000)); reflexivity.
Qed.

(** ** Once in the loop, always in the loop *)

Lemma in_loop_step (s : config) :
  in_loop (pc s) = true -> in_loop (pc (step s)) = true.
Proof.
  destruct s as [p m c tr]. cbn [pc].
  destruct p; intros H; try discriminate H; reflexivity.
Qed.

Lemma in_loop_run (n : nat) (s : config) :
  in_loop (pc s) = true -> in_loop (pc (run n s)) = true.
Proof.
  revert s. induction n as [| n IH]; intros s H.
  - exact H.
  - simpl. apply IH. apply in_loop_step. exact H.
Qed.

Lemma in_loop_after_init (m0 : memory) (n : nat) :
  in_loop (pc (run (init_steps + n) (initial m0))) = true.
Proof. rewrite run_add. apply in_loop_run. reflexivity. Qed.

Lemma Inv_in_loop (m0 : memory) (s : config) :
  Inv m0 s -> in_loop (pc s) = true -> loop_inv m0 s None.
Proof.
  destruct s as [p m c tr]. unfold Inv. cbn [pc].
  destruct p; intros H Hl; try discriminate Hl;
    solve [exact H | eapply loop_inv_forget; exact H].
Qed.

Lemma loop_inv_after_init (m0 : memory) (n : nat) :
  loop_inv m0 (run (init_steps + n) (initial m0)) None.
Proof.
  apply Inv_in_loop; [apply Inv_run | apply in_loop_after_init].
Qed.

Lemma Inv_reads (m0 : memory) (s : config) (a : Z) :
  Inv m0 s -> In a (reads_of (trace s)) -> a = DDRD.
Proof.
  destruct s as [p m c tr]. unfold Inv, loop_inv. cbn [pc mem trace].
  destruct p; intros H Hin;
    try (destruct H as (_ & _ & _ & Hrd & _); rewrite Hrd in Hin;
         destruct Hin as [<- | []]; reflexivity).
  - destruct H as [_ ->]. destruct Hin.
  - destruct H as (_ & _ & ->). destruct Hin.
  - destruct H.
Qed.

(** ** Runs that agree on the direction register of the second port *)

Lemma indistinguishable_step (s1 s2 : config) :
  indistinguishable s1 s2 -> indistinguishable (step s1) (step s2).
Proof.
  destruct s1 as [p1 m1 c1 tr1], s2 as [p2 m2 c2 tr2].
  unfold indistinguishable. cbn [pc mem clock trace].
  intros (Hpc & Hc & Htr & HD). subst p2 c2 tr2.
  destruct p1; autorewrite with machine; cbn [pc mem clock trace];
    conjs; mem_simpl; rewrite ?HD; first [reflexivity | exact HD].
Qed.

Lemma indistinguishable_run (n : nat) (s1 s2 : config) :
  indistinguishable s1 s2 -> indistinguishable (run n s1) (run n s2).
Proof.
  revert s1 s2. induction n as [| n IH]; intros s1 s2 H.
  - exact H.
  - simpl. apply IH. apply indistinguishable_step. exact H.
Qed.

(** * The claims *)

(** ** The register overlay *)

(** C3 (bit isolation): for a register whose byte view holds the byte [b],
    an assignment to the field at position [i] (0..7) through the bit-field
    view leaves every other bit of the byte view as it was, in both views;
    bit [i] takes the lowest bit of the assigned value and the register
    still holds a byte. *)
Theorem bit_write_isolation (b i v : Z) :
  is_uint8 b -> 0 <= i < 8 ->
  (forall j, j <> i ->
     Z.testbit (U_type.read_Reg (U_type.write_Bit b i v)) j
     = Z.testbit (U_type.read_Reg b) j) /\
  (forall j, 0 <= j < 8 -> j <> i ->
     U_type.read_Bit (U_type.write_Bit b i v) j = U_type.read_Bit b j) /\
  Z.testbit (U_type.read_Reg (U_type.write_Bit b i v)) i = Z.odd v /\
  is_uint8 (U_type.read_Reg (U_type.write_Bit b i v)).
Proof.
  intros Hb Hi. unfold U_type.read_Reg.
  assert (Hframe : forall j, 0 <= j < 8 -> j <> i ->
            Z.testbit (U_type.write_Bit b i v) j = Z.testbit b j)
    by (intros j Hj Hne; apply write_Bit_other; assumption).
  conjs.
  - intros j Hne.
    destruct (Z_lt_le_dec j 0) as [Hneg | Hpos].
    + rewrite !Z.testbit_neg_r by exact Hneg. reflexivity.
    + destruct (Z_lt_le_dec j 8) as [Hlt | Hge].
      * apply Hframe; [lia | exact Hne].
      * rewrite !uint8_high_bits; auto using write_Bit_range.
  - intros j Hj Hne. unfold U_type.read_Bit.
    rewrite !get_pin_Bit_of_Reg by exact Hj.
    f_equal. apply Hframe; assumption.
  - apply write_Bit_same. exact Hi.
  - apply write_Bit_range.
Qed.

Lemma bit_write_isolation_witness :
  (forall j, j <> 3 ->
     Z.testbit (U_type.read_Reg (U_type.write_Bit 0xA5 3 1)) j
     = Z.testbit (U_type.read_Reg 0xA5) j) /\
  (forall j, 0 <= j < 8 -> j <> 3 ->
     U_type.read_Bit (U_type.write_Bit 0xA5 3 1) j = U_type.read_Bit 0xA5 j) /\
  Z.testbit (U_type.read_Reg (U_type.write_Bit 0xA5 3 1)) 3 = Z.odd 1 /\
  is_uint8 (U_type.read_Reg (U_type.write_Bit 0xA5 3 1)).
Proof.
  apply (bit_write_isolation 0xA5 3 1); unfold is_uint8; lia.
Defined.

(** C4 (round trip on the byte view): for every 8-bit value [v], storing
    [v] through [Reg] and reading [Reg] back gives [v]; the same holds for a
    register in the data space written by [store_Reg]. *)
Theorem byte_write_read_roundtrip (r v a : Z) (s : config) :
  is_uint8 v ->
  U_type.read_Reg (U_type.write_Reg r v) = v /\
  U_type.read_Reg (load (mem (store_Reg a v s)) a) = v.
Proof.
  intros Hv. unfold U_type.read_Reg, U_type.write_Reg, store_Reg.
  cbn [mem]. rewrite load_store_same.
  split; apply to_uint8_id; exact Hv.
Qed.

Lemma byte_write_read_roundtrip_witness :
  U_type.read_Reg (U_type.write_Reg 0x0F 0xAA) = 0xAA /\
  U_type.read_Reg
    (load (mem (store_Reg PORTB 0xAA (initial zero_mem))) PORTB) = 0xAA.
Proof.
  apply (byte_write_read_roundtrip 0x0F 0xAA PORTB (initial zero_mem)).
  unfold is_uint8. lia.
Defined.

(** C8 (register block): a [GPIO_Type] is three one-byte registers at
    consecutive addresses from its base, in the order [PIN] (input state),
    [DDR] (direction), [PORT] (output), the eight one-bit fields of a
    register filling its single byte; the two blocks used sit at 0x23 and
    0x29, and whatever is stored in a register through either view is a
    byte. *)
Theorem GPIO_Type_layout :
  map fst GPIO_Type_decl = [PIN; DDR; PORT] /\
  Layout.struct_offsets 0 (map snd GPIO_Type_decl) = [0; 1; 2] /\
  Layout.sizeof GPIO_Type_t = 3 /\
  CHAR_BIT * Layout.sizeof Layout.U_type_t = 8 /\
  Layout.GPIO_pinType_fields
  = [(0, 0); (0, 1); (0, 2); (0, 3); (0, 4); (0, 5); (0, 6); (0, 7)] /\
  (forall base,
     reg_addr base PIN = base /\
     reg_addr base DDR = base + 1 /\
     reg_addr base PORT = base + 2) /\
  [PINB; DDRB; PORTB] = [0x23; 0x24; 0x25] /\
  [PIND; DDRD; PORTD] = [0x29; 0x2A; 0x2B] /\
  (forall r v, is_uint8 (U_type.write_Reg r v)) /\
  (forall r i v, is_uint8 (U_type.write_Bit r i v)).
Proof.
  conjs; try reflexivity.
  - intros base. unfold reg_addr.
    change (offsetof PIN) with 0. change (offsetof DDR) with 1.
    change (offsetof PORT) with 2. lia.
  - intros r v. apply to_uint8_range.
  - intros r i v. apply write_Bit_range.
Qed.

(** ** Initialisation *)

(** C2 (direction of the first port): once the two initialisation
    statements have run, and at any later step, the direction register of
    the first port holds 0xAA, the byte whose odd-numbered bits are set; the
    store that sets it is the first write of the run and is never repeated
    (nor is the store to the other direction register); the loop is entered
    right after the initialisation. *)
Theorem init_sets_DDRB (m0 : memory) (n : nat) :
  load (mem (run (init_steps + n) (initial m0))) DDRB = 0xAA /\
  (forall i, 0 <= i < 8 -> Z.testbit 0xAA i = Z.odd i) /\
  count_writes_to DDRB (trace (run (init_steps + n) (initial m0))) = 1%nat /\
  count_writes_to DDRD (trace (run (init_steps + n) (initial m0))) = 1%nat /\
  (exists rest,
     writes_of (trace (run (init_steps + n) (initial m0)))
     = (DDRB, 0xAA) :: rest) /\
  pc (run init_steps (initial m0)) = L_while.
Proof.
  destruct (loop_inv_after_init m0 n)
    as (HB & _ & _ & _ & HcB & HcD & (rest & Hw & _) & _).
  conjs.
  - exact HB.
  - intros i Hi. enum_bit i; reflexivity.
  - exact HcB.
  - exact HcD.
  - eexists. exact Hw.
  - reflexivity.
Qed.

Lemma init_sets_DDRB_witness :
  load (mem (run (init_steps + 7) (initial zero_mem))) DDRB = 0xAA /\
  (forall i, 0 <= i < 8 -> Z.testbit 0xAA i = Z.odd i) /\
  count_writes_to DDRB (trace (run (init_steps + 7) (initial zero_mem)))
  = 1%nat /\
  count_writes_to DDRD (trace (run (init_steps + 7) (initial zero_mem)))
  = 1%nat /\
  (exists rest,
     writes_of (trace (run (init_steps + 7) (initial zero_mem)))
     = (DDRB, 0xAA) :: rest) /\
  pc (run init_steps (initial zero_mem)) = L_while.
Proof. exact (init_sets_DDRB zero_mem 7). Defined.

(** C7 (direction of the second port): after the initialisation, bit 0 of
    the direction register of the second port is 1, seen through either
    view, and each of its bits 1..7 is the bit that the register held before
    [main] started. *)
Theorem init_sets_DDRD_bit0 (m0 : memory) (j : Z) :
  0 < j < 8 ->
  Z.testbit (load (mem (run init_steps (initial m0))) DDRD) 0 = true /\
  U_type.read_Bit (load (mem (run init_steps (initial m0))) DDRD) 0 = 1 /\
  Z.testbit (load (mem (run init_steps (initial m0))) DDRD) j
  = Z.testbit (load m0 DDRD) j.
Proof.
  intros Hj.
  change (load (mem (run init_steps (initial m0))) DDRD)
    with (U_type.write_Bit (load m0 DDRD) 0 1).
  assert (H0 : Z.testbit (U_type.write_Bit (load m0 DDRD) 0 1) 0 = true)
    by (rewrite write_Bit_same by lia; reflexivity).
  conjs.
  - exact H0.
  - unfold U_type.read_Bit. rewrite get_pin_Bit_of_Reg by lia.
    rewrite H0. reflexivity.
  - apply write_Bit_other; lia.
Qed.

Lemma init_sets_DDRD_bit0_witness :
  Z.testbit (load (mem (run init_steps (initial mem_DDRD_F0))) DDRD) 0 = true /\
  U_type.read_Bit (load (mem (run init_steps (initial mem_DDRD_F0))) DDRD) 0
  = 1 /\
  Z.testbit (load (mem (run init_steps (initial mem_DDRD_F0))) DDRD) 5
  = Z.testbit (load mem_DDRD_F0 DDRD) 5.
Proof. apply (init_sets_DDRD_bit0 mem_DDRD_F0 5). lia. Defined.

(** C9 (the loop keeps the directions): at every step from the end of the
    initialisation on, the direction register of the first port is 0xAA and
    that of the second port is as the initialisation left it, so its bit 0
    is 1; every write made after the initialisation goes to the output
    register of the first port. *)
Theorem loop_preserves_directions (m0 : memory) (n : nat) :
  load (mem (run (init_steps + n) (initial m0))) DDRB = 0xAA /\
  Z.testbit (load (mem (run (init_steps + n) (initial m0))) DDRD) 0 = true /\
  load (mem (run (init_steps + n) (initial m0))) DDRD
  = load (mem (run init_steps (initial m0))) DDRD /\
  exists rest,
    writes_of (trace (run (init_steps + n) (initial m0)))
    = writes_of (trace (run init_steps (initial m0))) ++ rest /\
    Forall (fun w => fst w = PORTB) rest.
Proof.
  destruct (loop_inv_after_init m0 n)
    as (HB & HD & _ & _ & _ & _ & (rest & Hw & Hall) & _).
  conjs.
  - exact HB.
  - rewrite HD. unfold DDRD_after_init.
    rewrite write_Bit_same by lia. reflexivity.
  - rewrite HD. reflexivity.
  - exists rest. split.
    + rewrite Hw. reflexivity.
    + eapply Forall_impl; [| exact Hall]. intros w [Hw1 _]. exact Hw1.
Qed.

(** ** The toggle loop *)

(** C1 (alternation): at every time [t >= 0] on the clock of the waits the
    machine is found, given [fuel_for t] steps or more, in a wait of 1000
    that began at the last multiple of 1000; the output register of the first port then holds 0xAA when
    [t / 1000] is even and 0x00 when it is odd (0xAA first, then 0x00, then
    0xAA, ...), and one interval later it holds the other value. *)
Theorem toggle_loop_alternates (m0 : memory) (t : Z) :
  0 <= t ->
  exists s,
    run_until (fuel_for t) t (initial m0) = Some s /\
    (forall extra, run_until (fuel_for t + extra) t (initial m0) = Some s) /\
    main_code (pc s)
    = IDelay 1000 (if Z.even (t / 1000) then L_low else L_while) /\
    clock s = 1000 * (t / 1000) /\
    load (mem s) PORTB = (if Z.even (t / 1000) then 0xAA else 0x00) /\
    toggle_of s = Some (if Z.even (t / 1000) then HIGH else LOW) /\
    sample PORTB t m0 = Some (waveform t) /\
    sample PORTB (t + 1000) m0
    = Some (if Z.even (t / 1000) then 0x00 else 0xAA).
Proof.
  intros Ht.
  destruct (run_until_main m0 t (fuel_for t) Ht (Nat.le_refl _))
    as (s & Hrun & Hpc & Hport & Hclk & Htog).
  destruct (run_until_main m0 (t + 1000) (fuel_for (t + 1000))
              ltac:(lia) (Nat.le_refl _))
    as (s2 & Hrun2 & _ & Hport2 & _).
  assert (Hnext : Z.even ((t + 1000) / 1000) = negb (Z.even (t / 1000))).
  { replace (t + 1000) with (t + 1 * 1000) by lia.
    rewrite Z.div_add by lia. rewrite Z.even_add. simpl.
    destruct (Z.even (t / 1000)); reflexivity. }
  exists s. conjs.
  - exact Hrun.
  - intros extra. apply run_until_more. exact Hrun.
  - rewrite Hpc. destruct (Z.even (t / 1000)); reflexivity.
  - exact Hclk.
  - exact Hport.
  - exact Htog.
  - unfold sample. rewrite Hrun. cbn [option_map]. rewrite Hport. reflexivity.
  - unfold sample. rewrite Hrun2. cbn [option_map]. rewrite Hport2.
    unfold waveform. rewrite Hnext.
    destruct (Z.even (t / 1000)); reflexivity.
Qed.

Lemma toggle_loop_alternates_witness :
  exists s,
    run_until (fuel_for 4321) 4321 (initial zero_mem) = Some s /\
    (forall extra,
       run_until (fuel_for 4321 + extra) 4321 (initial zero_mem) = Some s) /\
    main_code (pc s)
    = IDelay 1000 (if Z.even (4321 / 1000) then L_low else L_while) /\
    clock s = 1000 * (4321 / 1000) /\
    load (mem s) PORTB = (if Z.even (4321 / 1000) then 0xAA else 0x00) /\
    toggle_of s = Some (if Z.even (4321 / 1000) then HIGH else LOW) /\
    sample PORTB 4321 zero_mem = Some (waveform 4321) /\
    sample PORTB (4321 + 1000) zero_mem
    = Some (if Z.even (4321 / 1000) then 0x00 else 0xAA).
Proof. apply (toggle_loop_alternates zero_mem 4321). lia. Defined.

(** C6 (scenario): for the run that initialises and then enters the loop,
    whatever the data space held before, the output register of the first
    port reads 0xAA at t = 0 ms, 0x00 at t = 1500 ms and 0xAA at
    t = 2500 ms. *)
Theorem scenario_samples (m0 : memory) :
  sample PORTB 0 m0 = Some 0xAA /\
  sample PORTB 1500 m0 = Some 0x00 /\
  sample PORTB 2500 m0 = Some 0xAA.
Proof.
  assert (Hsample : forall t, 0 <= t -> sample PORTB t m0 = Some (waveform t)).
  { intros t Ht. unfold sample.
    destruct (run_until_main m0 t (fuel_for t) Ht (Nat.le_refl _))
      as (s & Hrun & _ & Hport & _).
    rewrite Hrun. cbn [option_map]. rewrite Hport. reflexivity. }
  conjs.
  - rewrite Hsample by lia. reflexivity.
  - rewrite Hsample by lia. reflexivity.
  - rewrite Hsample by lia. reflexivity.
Qed.

(** C5 (no exit): after the initialisation and any number [N] of turns of
    the loop the machine stands at the loop test, 2000 * N on the clock,
    from where it goes on to wait in HIGH (two steps later) and then in LOW
    (four steps later); an observer at that time finds it waiting in HIGH,
    and an observer at any time finds it waiting in HIGH or in LOW; no
    number of steps ever brings it to the end of [main]. *)
Theorem toggle_loop_never_exits (m0 : memory) (N : nat) :
  pc (after_iterations N m0) = L_while /\
  clock (after_iterations N m0) = 2000 * Z.of_nat N /\
  toggle_of (run 2 (after_iterations N m0)) = Some HIGH /\
  toggle_of (run 4 (after_iterations N m0)) = Some LOW /\
  (exists s,
     run_until (fuel_for (2000 * Z.of_nat N)) (2000 * Z.of_nat N) (initial m0)
     = Some s /\
     toggle_of s = Some HIGH /\ clock s = clock (after_iterations N m0)) /\
  (forall ms : nat,
     exists s,
       run_until (fuel_for (Z.of_nat ms)) (Z.of_nat ms) (initial m0) = Some s /\
       (toggle_of s = Some HIGH \/ toggle_of s = Some LOW)) /\
  (forall n, pc (run n (initial m0)) <> L_exit) /\
  (forall n, main_code (pc (run n (initial m0))) <> IHalt).
Proof.
  destruct (after_iterations_loop_head N m0) as [Hpc Hclk].
  assert (Hnoexit : forall n, pc (run n (initial m0)) <> L_exit).
  { intros n Hex. pose proof (Inv_run m0 n) as HI.
    unfold Inv in HI. rewrite Hex in HI. exact HI. }
  conjs.
  - exact Hpc.
  - exact Hclk.
  - destruct (after_iterations N m0) as [p m c tr]. cbn [pc] in Hpc. subst p.
    reflexivity.
  - destruct (after_iterations N m0) as [p m c tr]. cbn [pc] in Hpc. subst p.
    reflexivity.
  - assert (Hq : 2000 * Z.of_nat N / 1000 = 2 * Z.of_nat N).
    { replace (2000 * Z.of_nat N) with (2 * Z.of_nat N * 1000) by lia.
      apply Z.div_mul. lia. }
    destruct (run_until_main m0 (2000 * Z.of_nat N)
                (fuel_for (2000 * Z.of_nat N)) ltac:(lia) (Nat.le_refl _))
      as (s & Hrun & _ & _ & Hc & Htog).
    rewrite Hq in Hc, Htog. rewrite Z.even_mul in Htog. cbn [Z.even orb] in Htog.
    exists s. conjs; [exact Hrun | exact Htog | lia].
  - intros ms.
    destruct (run_until_main m0 (Z.of_nat ms) (fuel_for (Z.of_nat ms))
                ltac:(lia) (Nat.le_refl _))
      as (s & Hrun & _ & _ & _ & Htog).
    exists s. split; [exact Hrun |].
    rewrite Htog. destruct (Z.even (Z.of_nat ms / 1000)); [left | right]; reflexivity.
  - exact Hnoexit.
  - intros n Hhalt. apply (Hnoexit n).
    destruct (pc (run n (initial m0))); try discriminate Hhalt. reflexivity.
Qed.

(** ** What the run depends on *)

(** C10, as stated, fails: the program does read a hardware register.  The
    bit-field store of the initialisation fetches the direction register of
    the second port, and the byte it writes back depends on what it found:
    two data spaces with the same input-state registers, differing in that
    direction register, give different sequences of writes. *)
Lemma bit_store_reads_DDRD :
  reads_of (trace (run init_steps (initial zero_mem))) = [DDRD] /\
  load zero_mem PINB = load mem_DDRD_F0 PINB /\
  load zero_mem PIND = load mem_DDRD_F0 PIND /\
  writes_of (trace (run init_steps (initial zero_mem)))
  = [(DDRB, 0xAA); (DDRD, 0x01)] /\
  writes_of (trace (run init_steps (initial mem_DDRD_F0)))
  = [(DDRB, 0xAA); (DDRD, 0xF1)] /\
  writes_of (trace (run init_steps (initial zero_mem)))
  <> writes_of (trace (run init_steps (initial mem_DDRD_F0))).
Proof.
  conjs; try reflexivity.
  vm_compute. intros H. discriminate H.
Qed.

(** C10 (amended): the only register the program ever reads is the
    direction register of the second port; it never reads an input-state
    register.  So two runs whose initial data spaces differ only in the
    input-state registers stay at the same program point and clock, and
    perform the same sequence of register writes (addresses, values and
    order). *)
Theorem writes_independent_of_input_registers (m1 m2 : memory) (n : nat) :
  (forall a, a <> PINB -> a <> PIND -> load m1 a = load m2 a) ->
  writes_of (trace (run n (initial m1)))
  = writes_of (trace (run n (initial m2))) /\
  trace (run n (initial m1)) = trace (run n (initial m2)) /\
  pc (run n (initial m1)) = pc (run n (initial m2)) /\
  clock (run n (initial m1)) = clock (run n (initial m2)) /\
  (forall a, In a (reads_of (trace (run n (initial m1)))) -> a = DDRD) /\
  ~ In PINB (reads_of (trace (run n (initial m1)))) /\
  ~ In PIND (reads_of (trace (run n (initial m1)))).
Proof.
  intros Hagree.
  assert (Hind : indistinguishable (run n (initial m1)) (run n (initial m2))).
  { apply indistinguishable_run. unfold indistinguishable, initial.
    cbn [pc mem clock trace]. conjs; try reflexivity.
    apply Hagree; discriminate. }
  destruct Hind as (Hpc & Hclk & Htr & _).
  assert (Hreads : forall a,
            In a (reads_of (trace (run n (initial m1)))) -> a = DDRD)
    by (intros a; apply (Inv_reads m1); apply Inv_run).
  conjs.
  - rewrite Htr. reflexivity.
  - exact Htr.
  - exact Hpc.
  - exact Hclk.
  - exact Hreads.
  - intros Hin. apply Hreads in Hin. discriminate Hin.
  - intros Hin. apply Hreads in Hin. discriminate Hin.
Qed.

(** A data space whose input-state registers are not zero. *)
Lemma writes_independent_of_input_registers_witness :
  writes_of (trace (run 12 (initial zero_mem)))
  = writes_of (trace (run 12 (initial
      (fun a => if (a =? PINB) || (a =? PIND) then 0xFF else 0)))) /\
  trace (run 12 (initial zero_mem))
  = trace (run 12 (initial
      (fun a => if (a =? PINB) || (a =? PIND) then 0xFF else 0))) /\
  pc (run 12 (initial zero_mem))
  = pc (run 12 (initial
      (fun a => if (a =? PINB) || (a =? PIND) then 0xFF else 0))) /\
  clock (run 12 (initial zero_mem))
  = clock (run 12 (initial
      (fun a => if (a =? PINB) || (a =? PIND) then 0xFF else 0))) /\
  (forall a, In a (reads_of (trace (run 12 (initial zero_mem)))) -> a = DDRD) /\
  ~ In PINB (reads_of (trace (run 12 (initial zero_mem)))) /\
  ~ In PIND (reads_of (trace (run 12 (initial zero_mem)))).
Proof.
  apply (writes_independent_of_input_registers zero_mem
           (fun a => if (a =? PINB) || (a =? PIND) then 0xFF else 0) 12).
  intros a HB HD. unfold load, zero_mem.
  destruct (Z.eqb_spec a PINB) as [E | _]; [contradiction |].
  destruct (Z.eqb_spec a PIND) as [E | _]; [contradiction |].
  reflexivity.
Defined.


(** * Further properties of the code *)

(** ** The two views of [U_type] *)

Lemma Bit_of_Reg_of_Bit (s : GPIO_pinType) : Bit_of_Reg (Reg_of_Bit s) = s.
Proof. destruct s as [[] [] [] [] [] [] [] []]; reflexivity. Qed.

(** Two bytes with the same eight bits are equal. *)
Lemma uint8_ext (x y : Z) :
  is_uint8 x -> is_uint8 y ->
  (forall j, 0 <= j < 8 -> Z.testbit x j = Z.testbit y j) -> x = y.
Proof.
  intros Hx Hy Hbits. apply Z.bits_inj'. intros j Hj.
  destruct (Z_lt_le_dec j 8) as [Hlt | Hge].
  - apply Hbits. lia.
  - rewrite !uint8_high_bits by assumption. reflexivity.
Qed.

Lemma odd_b2z (x : bool) : Z.odd (Z.b2z x) = x.
Proof. destruct x; reflexivity. Qed.

Lemma read_Bit_testbit (r i : Z) :
  0 <= i < 8 -> U_type.read_Bit r i = Z.b2z (Z.testbit r i).
Proof.
  intros Hi. unfold U_type.read_Bit. rewrite get_pin_Bit_of_Reg by exact Hi.
  reflexivity.
Qed.

(** The bit-field store is the store one writes by hand with masks. *)
Lemma write_Bit_masks (b i v : Z) :
  is_uint8 b -> 0 <= i < 8 ->
  U_type.write_Bit b i v
  = if Z.odd v then Z.lor b (Z.shiftl 1 i) else Z.ldiff b (Z.shiftl 1 i).
Proof.
  intros Hb Hi. apply Z.bits_inj'. intros j Hj.
  change (Z.lor b (Z.shiftl 1 i)) with (Z.setbit b i).
  change (Z.ldiff b (Z.shiftl 1 i)) with (Z.clearbit b i).
  assert (Hrhs : Z.testbit (if Z.odd v then Z.setbit b i else Z.clearbit b i) j
                 = if i =? j then Z.odd v else Z.testbit b j).
  { destruct (Z.odd v).
    - rewrite Z.setbit_eqb by lia. destruct (i =? j); reflexivity.
    - rewrite Z.clearbit_eqb. destruct (i =? j); simpl.
      + apply andb_false_r.
      + apply andb_true_r. }
  rewrite Hrhs. destruct (Z.eqb_spec i j) as [<- | Hne].
  - apply write_Bit_same. exact Hi.
  - destruct (Z_lt_le_dec j 8) as [Hlt | Hge].
    + apply write_Bit_other; lia.
    + rewrite !uint8_high_bits; auto using write_Bit_range.
Qed.

(** X1 (the views alias one byte): decoding a byte into the eight fields
    and encoding them back gives the byte again, and encoding eight fields
    and decoding gives the same fields: nothing is lost or invented when
    one goes from one view of the union to the other. *)
Theorem views_round_trip (r : Z) (s : GPIO_pinType) :
  (is_uint8 r -> Reg_of_Bit (Bit_of_Reg r) = r) /\
  Bit_of_Reg (Reg_of_Bit s) = s /\
  is_uint8 (Reg_of_Bit s).
Proof.
  conjs.
  - apply Reg_of_Bit_of_Reg.
  - apply Bit_of_Reg_of_Bit.
  - apply Reg_of_Bit_range.
Qed.

Lemma views_round_trip_witness :
  Reg_of_Bit (Bit_of_Reg 0xAA) = 0xAA /\
  Bit_of_Reg (Reg_of_Bit (mkPins false true false true false true false true))
  = mkPins false true false true false true false true.
Proof.
  destruct (views_round_trip 0xAA
              (mkPins false true false true false true false true))
    as (H1 & H2 & _).
  split; [apply H1; unfold is_uint8; lia | exact H2].
Defined.

(** X2 (reading a field): the field at position [i] read through the
    bit-field view is bit [i] of what the byte view holds, that is
    [(Reg >> i) & 1], whatever the register contains. *)
Theorem read_Bit_is_shift_mask (r i : Z) :
  0 <= i < 8 ->
  U_type.read_Bit r i = (U_type.read_Reg r / 2 ^ i) mod 2 /\
  U_type.read_Bit r i = Z.land (Z.shiftr (U_type.read_Reg r) i) 1.
Proof.
  intros Hi. unfold U_type.read_Reg. rewrite read_Bit_testbit by exact Hi.
  split.
  - apply Z.testbit_spec'. lia.
  - change (Z.land (Z.shiftr r i) 1) with (Z.land (Z.shiftr r i) (Z.ones 1)).
    rewrite Z.land_ones by lia.
    rewrite Z.shiftr_div_pow2 by lia.
    change (2 ^ 1) with 2. apply Z.testbit_spec'. lia.
Qed.

Lemma read_Bit_is_shift_mask_witness :
  U_type.read_Bit 0xAA 3 = (U_type.read_Reg 0xAA / 2 ^ 3) mod 2 /\
  U_type.read_Bit 0xAA 3 = Z.land (Z.shiftr (U_type.read_Reg 0xAA) 3) 1.
Proof. apply (read_Bit_is_shift_mask 0xAA 3). lia. Defined.

(** X3 (a field holds one bit): after an assignment of [v] to the field at
    position [i], the field reads [v mod 2]: only the lowest bit of the
    assigned value is kept, so assigning an even value clears the pin. *)
Theorem write_then_read_Bit (b i v : Z) :
  0 <= i < 8 ->
  U_type.read_Bit (U_type.write_Bit b i v) i = v mod 2.
Proof.
  intros Hi. rewrite read_Bit_testbit by exact Hi.
  rewrite write_Bit_same by exact Hi.
  rewrite <- Z.bit0_odd. apply Z.bit0_mod.
Qed.

Lemma write_then_read_Bit_witness :
  U_type.read_Bit (U_type.write_Bit 0xFF 4 2) 4 = 2 mod 2.
Proof. apply (write_then_read_Bit 0xFF 4 2). lia. Defined.

(** X4 (the store as masks): on a register that holds a byte, the
    assignment to the field at position [i] is [Reg | (1 << i)] when the
    value assigned is odd and [Reg & ~(1 << i)] when it is even. *)
Theorem write_Bit_is_set_or_clear (b i v : Z) :
  is_uint8 b -> 0 <= i < 8 ->
  U_type.write_Bit b i v
  = if Z.odd v then Z.lor b (Z.shiftl 1 i) else Z.ldiff b (Z.shiftl 1 i).
Proof. apply write_Bit_masks. Qed.

Lemma write_Bit_is_set_or_clear_witness :
  U_type.write_Bit 0xF0 0 1
  = if Z.odd 1 then Z.lor 0xF0 (Z.shiftl 1 0) else Z.ldiff 0xF0 (Z.shiftl 1 0).
Proof. apply (write_Bit_is_set_or_clear 0xF0 0 1); unfold is_uint8; lia. Defined.

(** X5 (stores compose): assignments to two different fields commute; of
    two assignments to the same field the second one wins; and assigning to
    a field the value it already has leaves a byte as it is. *)
Theorem write_Bit_compose (b i j v w : Z) :
  0 <= i < 8 -> 0 <= j < 8 ->
  (i <> j ->
   U_type.write_Bit (U_type.write_Bit b i v) j w
   = U_type.write_Bit (U_type.write_Bit b j w) i v) /\
  U_type.write_Bit (U_type.write_Bit b i v) i w = U_type.write_Bit b i w /\
  (is_uint8 b -> U_type.write_Bit b i (U_type.read_Bit b i) = b).
Proof.
  intros Hi Hj. conjs.
  - intros Hne. apply uint8_ext; try apply write_Bit_range.
    intros k Hk.
    destruct (Z.eq_dec k j) as [-> | Hkj].
    + rewrite write_Bit_same by exact Hj.
      rewrite write_Bit_other by (try assumption; lia).
      rewrite write_Bit_same by exact Hj. reflexivity.
    + rewrite (write_Bit_other _ j w k) by assumption.
      destruct (Z.eq_dec k i) as [-> | Hki].
      * rewrite !write_Bit_same by exact Hi. reflexivity.
      * rewrite !write_Bit_other by assumption. reflexivity.
  - apply uint8_ext; try apply write_Bit_range.
    intros k Hk.
    destruct (Z.eq_dec k i) as [-> | Hki].
    + rewrite !write_Bit_same by exact Hi. reflexivity.
    + rewrite !write_Bit_other by assumption. reflexivity.
  - intros Hb. apply uint8_ext; [apply write_Bit_range | exact Hb |].
    intros k Hk.
    destruct (Z.eq_dec k i) as [-> | Hki].
    + rewrite write_Bit_same by exact Hi.
      rewrite read_Bit_testbit by exact Hi. apply odd_b2z.
    + apply write_Bit_other; assumption.
Qed.

Lemma write_Bit_compose_witness :
  U_type.write_Bit (U_type.write_Bit 0x5A 0 1) 7 0
  = U_type.write_Bit (U_type.write_Bit 0x5A 7 0) 0 1 /\
  U_type.write_Bit (U_type.write_Bit 0x5A 0 1) 0 0 = U_type.write_Bit 0x5A 0 0 /\
  U_type.write_Bit 0x5A 0 (U_type.read_Bit 0x5A 0) = 0x5A.
Proof.
  destruct (write_Bit_compose 0x5A 0 7 1 0) as (H1 & H2 & H3); try lia.
  conjs; [apply H1; lia | exact H2 | apply H3; unfold is_uint8; lia].
Defined.

(** ** The register blocks *)

Lemma offsetof_range (f : GPIO_member) :
  0 <= offsetof f < Layout.sizeof GPIO_Type_t.
Proof. destruct f; vm_compute; split; congruence. Qed.

Lemma offsetof_inj (f g : GPIO_member) : offsetof f = offsetof g -> f = g.
Proof. destruct f, g; intros H; try reflexivity; discriminate H. Qed.

(** X6 (no two registers share an address): inside a block the three
    members have three different addresses, and two blocks whose bases are
    at least the size of the struct apart have no address in common; the
    bases 0x23 and 0x29 are that far apart. *)
Theorem register_blocks_disjoint (b1 b2 : Z) (f g : GPIO_member) :
  (reg_addr b1 f = reg_addr b1 g -> f = g) /\
  (Layout.sizeof GPIO_Type_t <= Z.abs (b1 - b2) ->
   reg_addr b1 f <> reg_addr b2 g) /\
  Layout.sizeof GPIO_Type_t <= Z.abs (GPIOB - GPIOD).
Proof.
  pose proof (offsetof_range f) as Hf. pose proof (offsetof_range g) as Hg.
  unfold reg_addr. conjs.
  - intros H. apply offsetof_inj. lia.
  - intros Hfar H. lia.
  - vm_compute. congruence.
Qed.

Lemma register_blocks_disjoint_witness :
  reg_addr GPIOB PORT <> reg_addr GPIOD PIN.
Proof.
  destruct (register_blocks_disjoint GPIOB GPIOD PORT PIN) as (_ & H & Hfar).
  apply H. exact Hfar.
Defined.

(** ** What [main] leaves alone *)

Lemma Inv_frame (m0 : memory) (s : config) (a : Z) :
  Inv m0 s -> a <> DDRB -> a <> DDRD -> a <> PORTB ->
  load (mem s) a = load m0 a.
Proof.
  destruct s as [p m c tr]. unfold Inv, loop_inv. cbn [pc mem trace].
  intros H HB HD HP.
  destruct p;
    try (destruct H as (_ & _ & Hfr & _); apply Hfr; assumption).
  - destruct H as [Hm _]. apply Hm.
  - destruct H as (_ & Hm & _). apply Hm. exact HB.
  - destruct H.
Qed.

(** X7 (footprint of the program): however long [main] runs, the only
    addresses whose content can differ from what it was at entry are the
    two direction registers it sets and the output register of the first
    port; the input-state registers, the output register of the second port
    and the rest of the data space are never written. *)
Theorem main_footprint (m0 : memory) (n : nat) (a : Z) :
  a <> DDRB -> a <> DDRD -> a <> PORTB ->
  load (mem (run n (initial m0))) a = load m0 a.
Proof. intros HB HD HP. apply Inv_frame; [apply Inv_run | assumption ..]. Qed.

Lemma main_footprint_witness :
  load (mem (run 40 (initial mem_DDRD_F0))) PORTD = load mem_DDRD_F0 PORTD.
Proof. apply (main_footprint mem_DDRD_F0 40 PORTD); discriminate. Defined.

(** ** The trace of the run *)

Lemma count_writes_to_app (a : Z) (l1 l2 : list event) :
  count_writes_to a (l1 ++ l2)
  = (count_writes_to a l1 + count_writes_to a l2)%nat.
Proof.
  induction l1 as [| e l1 IH]; [reflexivity |].
  destruct e as [x | x v | d]; cbn [app count_writes_to]; try exact IH.
  destruct (x =? a); rewrite IH; reflexivity.
Qed.

Lemma count_PORTB_repeat (N : nat) :
  count_writes_to PORTB (repeat_events N loop_events) = (2 * N)%nat.
Proof.
  induction N as [| N IH]; [reflexivity |].
  cbn [repeat_events]. rewrite count_writes_to_app, IH.
  change (count_writes_to PORTB loop_events) with 2%nat. lia.
Qed.

Lemma after_iterations_trace (N : nat) (m0 : memory) :
  trace (after_iterations N m0)
  = repeat_events N loop_events ++ init_events m0.
Proof.
  induction N as [| N IH]; [reflexivity |].
  rewrite after_iterations_succ.
  destruct (after_iterations_loop_head N m0) as [Hpc _].
  destruct (after_iterations N m0) as [p m c tr].
  cbn [pc trace] in Hpc, IH. subst p tr.
  rewrite run_loop_once. reflexivity.
Qed.

(** X8 (the whole trace): after the initialisation and [N] turns of the
    loop the trace is exactly the three events of the initialisation
    followed by [N] copies of store 0xAA, wait 1000, store 0x00, wait 1000;
    the output register of the first port has been written [2 * N] times. *)
Theorem trace_after_iterations (N : nat) (m0 : memory) :
  trace (after_iterations N m0)
  = repeat_events N loop_events ++ init_events m0 /\
  count_writes_to PORTB (trace (after_iterations N m0)) = (2 * N)%nat /\
  length (trace (after_iterations N m0)) = (3 + 4 * N)%nat.
Proof.
  rewrite after_iterations_trace. conjs.
  - reflexivity.
  - rewrite count_writes_to_app, count_PORTB_repeat.
    change (count_writes_to PORTB (init_events m0)) with 0%nat. lia.
  - rewrite length_app. cbn [init_events length].
    induction N as [| N IH]; [reflexivity |].
    cbn [repeat_events]. rewrite length_app. cbn [loop_events length]. lia.
Qed.

(** ** The run repeats itself *)

Lemma load_store_eq (m1 m2 : memory) (a v x : Z) :
  load m1 x = load m2 x -> load (store m1 a v) x = load (store m2 a v) x.
Proof. unfold load, store. intros H. destruct (x =? a); [reflexivity | exact H]. Qed.

Lemma same_state_step (d : Z) (s1 s2 : config) :
  same_state d s1 s2 -> same_state d (step s1) (step s2).
Proof.
  destruct s1 as [p1 m1 c1 tr1], s2 as [p2 m2 c2 tr2].
  unfold same_state. cbn [pc mem clock].
  intros (Hpc & Hclk & Hmem). subst p1.
  destruct p2; autorewrite with machine; cbn [pc mem clock];
    conjs; try reflexivity; try lia; try exact Hmem;
    intros a; try (apply load_store_eq; apply Hmem).
  rewrite (Hmem DDRD). apply load_store_eq. apply Hmem.
Qed.

Lemma same_state_run (d : Z) (n : nat) (s1 s2 : config) :
  same_state d s1 s2 -> same_state d (run n s1) (run n s2).
Proof.
  revert s1 s2. induction n as [| n IH]; intros s1 s2 H.
  - exact H.
  - simpl. apply IH. apply same_state_step. exact H.
Qed.

Lemma first_period (m0 : memory) :
  same_state 2000 (run loop_steps (run first_wait_steps (initial m0)))
                  (run first_wait_steps (initial m0)).
Proof.
  unfold same_state. conjs; try reflexivity.
  intros a. cbn [run first_wait_steps init_steps loop_steps Nat.add].
  unfold initial. autorewrite with machine. cbn [mem].
  unfold load, store. destruct (a =? PORTB); reflexivity.
Qed.

(** X9 (period of the machine): from the first wait of the loop on, five
    steps later the machine is at the same program point with every address
    holding the same content, 2000 later on the clock: after its first store
    the loop has forgotten what the output register held at entry. *)
Theorem run_is_periodic (m0 : memory) (n : nat) :
  same_state 2000
    (run (first_wait_steps + n + loop_steps) (initial m0))
    (run (first_wait_steps + n) (initial m0)).
Proof.
  replace (first_wait_steps + n + loop_steps)%nat
    with (first_wait_steps + loop_steps + n)%nat by lia.
  rewrite !run_add. apply same_state_run. apply first_period.
Qed.

(** ** The output as a function of time *)

Lemma sample_waveform (m0 : memory) (t : Z) :
  0 <= t -> sample PORTB t m0 = Some (waveform t).
Proof.
  intros Ht. unfold sample.
  destruct (run_until_main m0 t (fuel_for t) Ht (Nat.le_refl _))
    as (s & Hrun & _ & Hport & _).
  rewrite Hrun. cbn [option_map]. rewrite Hport. reflexivity.
Qed.

Lemma waveform_shift (t : Z) :
  waveform (t + 2000) = waveform t /\ waveform (t + 1000) <> waveform t.
Proof.
  unfold waveform.
  replace (t + 2000) with (t + 2 * 1000) by lia.
  replace (t + 1000) with (t + 1 * 1000) by lia.
  rewrite !Z.div_add by lia. rewrite !Z.even_add.
  cbn [Z.even]. destruct (Z.even (t / 1000)); split; cbn; congruence.
Qed.

(** X10 (period of the output): sampled at any time [t >= 0], the output
    register of the first port does not depend on what the data space held
    at entry; it has the same value 2000 later and a different one 1000
    later, so the signal has period 2000 with equal halves. *)
Theorem output_period (m1 m2 : memory) (t : Z) :
  0 <= t ->
  sample PORTB t m1 = sample PORTB t m2 /\
  sample PORTB (t + 2000) m1 = sample PORTB t m1 /\
  sample PORTB (t + 1000) m1 <> sample PORTB t m1.
Proof.
  intros Ht. destruct (waveform_shift t) as [H2 H1].
  rewrite !sample_waveform by lia. conjs.
  - reflexivity.
  - rewrite H2. reflexivity.
  - intros H. apply H1. injection H as H. exact H.
Qed.

Lemma output_period_witness :
  sample PORTB 700 zero_mem = sample PORTB 700 (fun _ => 0xFF) /\
  sample PORTB (700 + 2000) zero_mem = sample PORTB 700 zero_mem /\
  sample PORTB (700 + 1000) zero_mem <> sample PORTB 700 zero_mem.
Proof. apply (output_period zero_mem (fun _ => 0xFF) 700). lia. Defined.

(** ** Only output pins are driven *)

Lemma driving_step (s : config) : driving s -> driving (step s).
Proof.
  destruct s as [p m c tr]. unfold driving. cbn [pc mem].
  intros (Hl & HB & HP).
  destruct p; try discriminate Hl; autorewrite with machine; cbn [pc mem];
    conjs; try reflexivity; mem_simpl; try exact HB; try exact HP;
    solve [left; reflexivity | right; reflexivity].
Qed.

Lemma driving_run (n : nat) (s : config) : driving s -> driving (run n s).
Proof.
  revert s. induction n as [| n IH]; intros s H.
  - exact H.
  - simpl. apply IH. apply driving_step. exact H.
Qed.

Lemma driving_first_wait (m0 : memory) :
  driving (run first_wait_steps (initial m0)).
Proof. unfold driving. conjs; try reflexivity. left. reflexivity. Qed.

(** X11 (no input pin is driven): from the first wait of the loop on, the
    output register of the first port holds 0xAA or 0x00, and every bit set
    in it is set in the direction register: the program drives output pins
    only and never switches on the pull-up of an input pin. *)
Theorem only_outputs_driven (m0 : memory) (n : nat) :
  (load (mem (run (first_wait_steps + n) (initial m0))) PORTB = 0xAA \/
   load (mem (run (first_wait_steps + n) (initial m0))) PORTB = 0x00) /\
  Z.ldiff (load (mem (run (first_wait_steps + n) (initial m0))) PORTB)
          (load (mem (run (first_wait_steps + n) (initial m0))) DDRB) = 0 /\
  Z.land (load (mem (run (first_wait_steps + n) (initial m0))) PORTB)
         (load (mem (run (first_wait_steps + n) (initial m0))) DDRB)
  = load (mem (run (first_wait_steps + n) (initial m0))) PORTB.
Proof.
  rewrite run_add.
  destruct (driving_run n _ (driving_first_wait m0)) as (_ & HB & HP).
  rewrite HB. conjs.
  - exact HP.
  - destruct HP as [-> | ->]; reflexivity.
  - destruct HP as [-> | ->]; reflexivity.
Qed.

(** ** The initialisation of the second port *)

(** X12 (bit 0 is or-ed in): when the direction register of the second port
    holds a byte at entry, the initialisation leaves it equal to that byte
    or-ed with 0x01; if bit 0 was already set the register keeps its
    value. *)
Theorem init_ors_bit0_into_DDRD (m0 : memory) :
  is_uint8 (load m0 DDRD) ->
  load (mem (run init_steps (initial m0))) DDRD = Z.lor (load m0 DDRD) 0x01 /\
  (Z.testbit (load m0 DDRD) 0 = true ->
   load (mem (run init_steps (initial m0))) DDRD = load m0 DDRD).
Proof.
  intros Hb.
  change (load (mem (run init_steps (initial m0))) DDRD)
    with (U_type.write_Bit (load m0 DDRD) 0 1).
  split.
  - rewrite write_Bit_masks by (try exact Hb; lia). reflexivity.
  - intros Hset. apply uint8_ext; [apply write_Bit_range | exact Hb |].
    intros k Hk. destruct (Z.eq_dec k 0) as [-> | Hne].
    + rewrite write_Bit_same by lia. rewrite Hset. reflexivity.
    + apply write_Bit_other; lia.
Qed.

Lemma init_ors_bit0_into_DDRD_witness :
  load (mem (run init_steps (initial mem_DDRD_F0))) DDRD
  = Z.lor (load mem_DDRD_F0 DDRD) 0x01.
Proof.
  apply (init_ors_bit0_into_DDRD mem_DDRD_F0). vm_compute. split; congruence.
Defined.

(** ** What decides the trace *)

(** X13 (one register decides the run): two runs whose data spaces agree at
    entry on the direction register of the second port produce the same
    events, reads, writes and waits, in the same order, reach the same
    program point and show the same clock after any number of steps,
    whatever else the data spaces hold. *)
Theorem trace_decided_by_DDRD (m1 m2 : memory) (n : nat) :
  load m1 DDRD = load m2 DDRD ->
  trace (run n (initial m1)) = trace (run n (initial m2)) /\
  pc (run n (initial m1)) = pc (run n (initial m2)) /\
  clock (run n (initial m1)) = clock (run n (initial m2)).
Proof.
  intros HD.
  destruct (indistinguishable_run n (initial m1) (initial m2))
    as (Hpc & Hclk & Htr & _).
  - unfold indistinguishable, initial. cbn [pc mem clock trace].
    conjs; try reflexivity. exact HD.
  - conjs; assumption.
Qed.

Lemma trace_decided_by_DDRD_witness :
  trace (run 9 (initial zero_mem)) = trace (run 9 (initial (fun a => if a =? DDRD then 0 else 0xFF))) /\
  pc (run 9 (initial zero_mem)) = pc (run 9 (initial (fun a => if a =? DDRD then 0 else 0xFF))) /\
  clock (run 9 (initial zero_mem)) = clock (run 9 (initial (fun a => if a =? DDRD then 0 else 0xFF))).
Proof.
  apply (trace_decided_by_DDRD zero_mem (fun a => if a =? DDRD then 0 else 0xFF) 9). reflexivity.
Defined.
